(** * audio_comms::utilities::result::Result

    A shallow embedding of [result/include/result/Result.hpp] and the
    properties of its operations: construction, classification, comparison,
    [format], the two [operator<<] behaviours and the translating
    constructor.

    Conventions of the embedding
    - [std::string] is [string]; [+=] on a string is [+:+].
    - An [std::ostringstream] that is created, written with [<<] and read
      once with [str()] is the string of what was written, in order.
    - [const] member functions that only read their own object are pure
      functions of the object's value.
    - Member functions that write through a reference ([operator<<],
      [Append::run], the translating constructor) run in a small state
      monad over a heap of objects, so that a [const Result &] argument
      that designates the receiver itself is read after the receiver was
      written, as in the source. *)

From Stdlib Require Import ZArith Ascii String.
From stdpp Require Import base option list strings pretty.

(** ** Strings *)

Module Str.

(** [std::string::empty()] *)
Definition empty (s : string) : bool :=
  match s with "" => true | String _ _ => false end.

(** [s] is an initial segment of [t]. *)
Definition is_prefix (s t : string) : Prop := ∃ u, t = s +:+ u.

End Str.


(** ** Output streams

    What [ss << x] writes into a default-constructed [std::ostringstream]
    for the types appended in this development. *)

Class Streamable (T : Type) := stream_out : T → string.
#[global] Hint Mode Streamable ! : typeclass_instances.

(** [std::string] and string literals are written verbatim. *)
#[global] Instance Streamable_string : Streamable string := λ s, s.
(** [int] is written in decimal, with a leading [-] when negative. *)
#[global] Instance Streamable_int : Streamable Z := λ n, pretty n.
(** [char] is written as the character itself. *)
#[global] Instance Streamable_char : Streamable ascii := λ c, String c "".

(** [ss << x] on the buffer of an [ostringstream]. *)
Definition ss_put {T} `{Streamable T} (ss : string) (x : T) : string :=
  ss +:+ stream_out x.

Notation "ss <<< x" := (ss_put ss x) (at level 50, left associativity).

(** ** The error trait

    [template <class ErrorTrait>]: a [Code] type compared with [==], the
    constants [success] and [defaultError], the static function
    [codeToString], and the conversion [static_cast<int>] that [format]
    applies to a code. *)

Class ErrorTrait := {
  Code : Type;
  Code_eq_dec :: EqDecision Code;
  success : Code;
  defaultError : Code;
  codeToString : Code → string;
  static_cast_int : Code → Z
}.

(** ** Result values *)

Record Result (T : ErrorTrait) := mkResult {
  _errorCode : @Code T;   (* result code held by class *)
  _message : string       (* an error message explaining the error *)
}.
Arguments mkResult {T} _ _.
Arguments _errorCode {T} _.
Arguments _message {T} _.

Section Values.
Context {T : ErrorTrait}.

(** [explicit Result(Code code = ErrorTrait::defaultError)]: the code is
    stored, [_message] is default-constructed. *)
Definition Result_ctor (code : Code) : Result T := mkResult code "".

(** The same constructor called with no argument. *)
Definition Result_default : Result T := Result_ctor defaultError.

Definition getErrorCode (r : Result T) : Code := _errorCode r.

Definition getMessage (r : Result T) : string := _message r.

(** [operator==] *)
Definition Result_eqb (r toCompare : Result T) : bool :=
  bool_decide (_errorCode r = _errorCode toCompare).

Definition isSuccess (r : Result T) : bool :=
  bool_decide (_errorCode r = success).

(** [operator typename ErrorTrait::Code()] *)
Definition to_Code (r : Result T) : Code := _errorCode r.

Definition isFailure (r : Result T) : bool := negb (isSuccess r).

Definition format (r : Result T) : string :=
  if isFailure r then
    let ss := "" in
    (* error code and error description *)
    let ss := ss <<< "Code " <<< static_cast_int (_errorCode r) <<< ": "
                 <<< codeToString (_errorCode r) in
    (* concatenate the message (if not empty) *)
    let ss :=
      if 0 <? String.length (_message r)
      then ss <<< " (" <<< _message r <<< ")"
      else ss in
    ss
  else "Success".

(** [static const Result &success()]: a function-local static object,
    constructed by the first call and handed out by reference (to
    [const]) by every call.  The cell is [None] until the first call. *)
Definition static_cell : Type := option (Result T).

Definition Result_success (cell : static_cell) : Result T * static_cell :=
  match cell with
  | None => let s := Result_ctor success in (s, Some s)
  | Some s => (s, Some s)
  end.

(** The states the cell of [success()] can be in: not yet constructed,
    or holding the object its first call constructed.  Nothing else
    writes the cell, and the reference handed out is to [const]. *)
Definition cell_reachable (cell : static_cell) : Prop :=
  cell = None ∨ cell = Some (Result_ctor success).

End Values.

(** ** Objects, references and the state monad

    Objects of type [Result<ErrorTrait>] live in a heap; a location is an
    index into it.  A computation reads and writes the heap and fails on a
    dangling location.  Storage is never reclaimed: a destroyed temporary
    stays in the heap, unreachable. *)

Abbreviation loc := nat (only parsing).

Abbreviation heap T := (list (Result T)) (only parsing).

Section Heap.
Context {T : ErrorTrait}.

Definition M (A : Type) : Type := heap T → option (A * heap T).

#[global] Instance M_ret : MRet M := λ A a h, Some (a, h).

#[global] Instance M_bind : MBind M := λ A B k m h,
  match m h with
  | Some (a, h') => k a h'
  | None => None
  end.

Definition load (l : loc) : M (Result T) := λ h,
  match h !! l with
  | Some r => Some (r, h)
  | None => None
  end.

Definition store (l : loc) (r : Result T) : M unit := λ h,
  match h !! l with
  | Some _ => Some (tt, <[l := r]> h)
  | None => None
  end.

Definition alloc (r : Result T) : M loc := λ h,
  Some (length h, h ++ [r]).

(** [res._message += s] *)
Definition message_append (r : Result T) (s : string) : Result T :=
  mkResult (_errorCode r) (_message r +:+ s).

(** What a [const Result<Err> &] can designate: an object of this heap
    (then [Err] is [ErrorTrait], and it may be the receiver itself), or
    an object held elsewhere, of any trait, which no write to this heap
    reaches. *)
Inductive ResultRef : Type :=
| Here (l : loc)
| Elsewhere {Err : ErrorTrait} (v : Result Err).

(** [data.format()] and [data.isFailure()] read through the reference in
    the heap as it is at the call. *)
Definition format_in (h : heap T) (data : ResultRef) : option string :=
  match data with
  | Here l => format <$> h !! l
  | Elsewhere v => Some (format v)
  end.

Definition isFailure_in (h : heap T) (data : ResultRef) : option bool :=
  match data with
  | Here l => isFailure <$> h !! l
  | Elsewhere v => Some (isFailure v)
  end.

Definition isSuccess_in (h : heap T) (data : ResultRef) : option bool :=
  match data with
  | Here l => isSuccess <$> h !! l
  | Elsewhere v => Some (isSuccess v)
  end.

Definition format_at (data : ResultRef) : M string := λ h,
  match format_in h data with
  | Some f => Some (f, h)
  | None => None
  end.

Definition isFailure_at (data : ResultRef) : M bool := λ h,
  match isFailure_in h data with
  | Some b => Some (b, h)
  | None => None
  end.

(** [Append<Data>::run] *)
Definition Append_run {Data} `{Streamable Data}
    (res : loc) (data : Data) : M unit :=
  let ss := "" <<< data in
  r ← load res;
  store res (message_append r ss).

(** [Append<Result<Err> >::run] *)
Definition Append_Result_run (res : loc) (data : ResultRef) : M unit :=
  r ← load res;
  (if negb (Str.empty (_message r))
   then store res (message_append r ": ")
   else mret tt);;
  f ← format_at data;
  r ← load res;
  store res (message_append r f).

(** The argument of [operator<<]: the template argument [T] selects the
    primary [Append] or its partial specialisation for [Result<Err>]. *)
Inductive Operand : Type :=
| Streamed {D : Type} `{Streamable D} (d : D)
| Nested (d : ResultRef).

(** [template <class T> Result<ErrorTrait> operator<<(const T &aT)]:
    runs [Append<T>::run] on [*this] and [aT], and returns a copy of [*this]. *)
Definition operator_shl (this : loc) (aT : Operand) : M (Result T) :=
  match aT with
  | Streamed d => Append_run this d
  | Nested d => Append_Result_run this d
  end;;
  load this.

(** [r << a << b] is [(r << a) << b]: the second call has the temporary
    returned by the first as its receiver. *)
Definition shl_chain (r : loc) (a b : Operand) : M (Result T) :=
  v ← operator_shl r a;
  tmp ← alloc v;
  operator_shl tmp b.

(** [template <class InputTrait> explicit Result(const Result<InputTrait> &
    inputResult, Code failureCode, Code successCode = ErrorTrait::success)].
    The new object starts with [_message] empty; [_errorCode] holds no
    value until the taken branch assigns it, so the cell is created with
    the assigned code.  The copy returned by [operator<<] is dropped. *)
Definition Result_translate (inputResult : ResultRef)
    (failureCode successCode : Code) : M loc :=
  failed ← isFailure_at inputResult;
  if (failed : bool) then
    this ← alloc (mkResult failureCode "");
    operator_shl this (Nested inputResult);;
    mret this
  else
    alloc (mkResult successCode "").

(** The same constructor with [successCode] left to its default. *)
Definition Result_translate_default (inputResult : ResultRef)
    (failureCode : Code) : M loc :=
  Result_translate inputResult failureCode success.

(** *** Vocabulary of the statements *)

(** A reference is live when it designates an object. *)
Definition ref_live (h : heap T) (data : ResultRef) : Prop :=
  match data with
  | Here l => is_Some (h !! l)
  | Elsewhere _ => True
  end.

Definition operand_live (h : heap T) (aT : Operand) : Prop :=
  match aT with
  | Streamed _ => True
  | Nested d => ref_live h d
  end.

(** The separator a nested append puts after a message [m]. *)
Definition separator (m : string) : string :=
  if Str.empty m then "" else ": ".

(** The heap in which a nested append to [res] evaluates
    [data.format()]: the separator, if any, is already written. *)
Definition after_separator (h : heap T) (res : loc) : heap T :=
  match h !! res with
  | Some r =>
      if Str.empty (_message r) then h
      else <[res := message_append r ": "]> h
  | None => h
  end.

(** The text one [operator<<] call adds to the message of [this]. *)
Definition appended (h : heap T) (this : loc) (aT : Operand) : option string :=
  match aT with
  | Streamed d => Some (stream_out d)
  | Nested d =>
      r ← h !! this;
      f ← format_in (after_separator h this) d;
      Some (separator (_message r) +:+ f)
  end.

(** *** Sequences of calls *)

(** [res << d1; res << d2; ...]: one statement per nested append, all on
    the same receiver; the copy each call returns is dropped. *)
Fixpoint shl_each (res : loc) (ds : list ResultRef) : M unit :=
  match ds with
  | [] => mret tt
  | d :: ds => operator_shl res (Nested d);; shl_each res ds
  end.

(** [v << b1 << b2 << ...] where [v] is the value a call returned: it is
    materialised as a temporary, which is the receiver of the next call. *)
Fixpoint shl_chain_from (v : Result T) (ops : list Operand) : M (Result T) :=
  match ops with
  | [] => mret v
  | b :: ops =>
      tmp ← alloc v;
      v' ← operator_shl tmp b;
      shl_chain_from v' ops
  end.

(** [r << a << b1 << b2 << ...] *)
Definition shl_chain_all (r : loc) (a : Operand) (ops : list Operand)
    : M (Result T) :=
  v ← operator_shl r a;
  shl_chain_from v ops.

End Heap.
Arguments M : clear implicits.

(** ** Two instantiations

    The header defines no trait of its own.  [FileError] is a three-code
    domain ([OK = 0], [NOT_FOUND = 1], [IO_ERROR = 2]); [Cause] is a second,
    unrelated domain whose codes 1 and 2 are described as [X] and [Y]. *)

Module Samples.

Inductive FileCode := OK | NOT_FOUND | IO_ERROR.

#[global] Instance FileCode_eq_dec : EqDecision FileCode.
Proof. solve_decision. Defined.

#[global] Instance FileError : ErrorTrait := {|
  Code := FileCode;
  success := OK;
  defaultError := IO_ERROR;
  codeToString c :=
    match c with
    | OK => "ok"
    | NOT_FOUND => "not found"
    | IO_ERROR => "input/output error"
    end;
  static_cast_int c :=
    match c with OK => 0 | NOT_FOUND => 1 | IO_ERROR => 2 end%Z
|}.

Inductive CauseCode := NoCause | CauseX | CauseY.

#[global] Instance CauseCode_eq_dec : EqDecision CauseCode.
Proof. solve_decision. Defined.

Definition Cause : ErrorTrait := {|
  Code := CauseCode;
  success := NoCause;
  defaultError := CauseY;
  codeToString c :=
    match c with NoCause => "none" | CauseX => "X" | CauseY => "Y" end;
  static_cast_int c :=
    match c with NoCause => 0 | CauseX => 1 | CauseY => 2 end%Z
|}.

Definition not_found : Result FileError := Result_ctor NOT_FOUND.
Definition not_found_m : Result FileError := mkResult NOT_FOUND "m".
Definition cause_x : Result Cause := @Result_ctor Cause CauseX.
Definition cause_y : Result Cause := @Result_ctor Cause CauseY.

End Samples.

(** * Properties *)

(** ** Facts about strings *)

Module StrFacts.
Import Str.

Lemma app_nil_l (s : string) : "" +:+ s = s.
Proof. reflexivity. Qed.

Lemma app_cons (a : ascii) (s t : string) :
  String a s +:+ t = String a (s +:+ t).
Proof. reflexivity. Qed.

Lemma app_nil_r (s : string) : s +:+ "" = s.
Proof.
  induction s as [|a s IH]; [reflexivity|].
  now rewrite app_cons, IH.
Qed.

Lemma app_assoc (s t u : string) : (s +:+ t) +:+ u = s +:+ (t +:+ u).
Proof.
  induction s as [|a s IH]; [reflexivity|].
  now rewrite !app_cons, IH.
Qed.

Lemma length_app (s t : string) :
  String.length (s +:+ t) = String.length s + String.length t.
Proof.
  induction s as [|a s IH]; [reflexivity|].
  rewrite app_cons. simpl. now rewrite IH.
Qed.

Lemma empty_true (s : string) : empty s = true ↔ s = "".
Proof. destruct s; simpl; split; congruence. Qed.

Lemma empty_false (s : string) : empty s = false ↔ s ≠ "".
Proof. destruct s; simpl; split; congruence. Qed.

Lemma empty_decide (s : string) : empty s = bool_decide (s = "").
Proof. now destruct s. Qed.

Lemma length_pos (s : string) : (0 <? String.length s) = negb (empty s).
Proof. destruct s; reflexivity. Qed.

Lemma empty_app (s t : string) : empty (s +:+ t) = empty s && empty t.
Proof. destruct s; [reflexivity | now rewrite app_cons]. Qed.

Lemma is_prefix_refl s : is_prefix s s.
Proof. exists "". now rewrite app_nil_r. Qed.

Lemma is_prefix_app s u : is_prefix s (s +:+ u).
Proof. now exists u. Qed.

Lemma is_prefix_trans s t u : is_prefix s t → is_prefix t u → is_prefix s u.
Proof.
  intros [a ->] [b ->]. exists (a +:+ b). apply app_assoc.
Qed.

Lemma is_prefix_length s t :
  is_prefix s t → String.length s ≤ String.length t.
Proof. intros [u ->]. rewrite length_app. lia. Qed.

End StrFacts.

Create HintDb result.
#[export] Hint Resolve StrFacts.is_prefix_refl StrFacts.is_prefix_app : result.
Create Rewrite HintDb str.
#[export] Hint Rewrite StrFacts.app_nil_l StrFacts.app_nil_r StrFacts.app_assoc : str.

(** ** Values: construction, classification, comparison, [format] *)

Section ValueFacts.
Context {T : ErrorTrait}.
Implicit Types (r : Result T) (c : Code) (m : string).

Lemma isSuccess_iff r : isSuccess r = true ↔ _errorCode r = success.
Proof. unfold isSuccess. apply bool_decide_eq_true. Qed.

Lemma isFailure_iff r : isFailure r = true ↔ _errorCode r ≠ success.
Proof.
  unfold isFailure, isSuccess.
  rewrite negb_true_iff. apply bool_decide_eq_false.
Qed.

Lemma isFailure_negb r : isFailure r = negb (isSuccess r).
Proof. reflexivity. Qed.

Lemma isSuccess_message r s :
  isSuccess (message_append r s) = isSuccess r.
Proof. reflexivity. Qed.

Lemma format_of_success r : isSuccess r = true → format r = "Success".
Proof. intros H. unfold format, isFailure. now rewrite H. Qed.

Lemma format_of_failure r :
  isSuccess r = false →
  format r =
    "Code " +:+ pretty (static_cast_int (_errorCode r)) +:+ ": " +:+
    codeToString (_errorCode r) +:+
    (if Str.empty (_message r) then "" else " (" +:+ _message r +:+ ")").
Proof.
  intros H. unfold format, isFailure. rewrite H. simpl.
  rewrite StrFacts.length_pos. unfold ss_put, stream_out.
  unfold Streamable_string, Streamable_int.
  destruct (Str.empty (_message r)); simpl;
    now autorewrite with str.
Qed.

Lemma format_not_empty r : Str.empty (format r) = false.
Proof.
  destruct (isSuccess r) eqn:H.
  - now rewrite format_of_success.
  - now rewrite format_of_failure.
Qed.

(** C1. [format] is a function of the object's code and message: it is
    the text [Success] when the code is [ErrorTrait::success]; otherwise
    it is [Code ], the decimal value of the code, [: ] and
    [codeToString] of the code, followed by the message between [ (] and
    [)] exactly when the message is not empty. *)
Theorem format_canonical r :
  format r =
    if decide (_errorCode r = success) then "Success"
    else "Code " +:+ pretty (static_cast_int (_errorCode r)) +:+ ": " +:+
         codeToString (_errorCode r) +:+
         (if decide (_message r = "") then ""
          else " (" +:+ _message r +:+ ")").
Proof.
  destruct (decide (_errorCode r = success)) as [Hs|Hf].
  - apply format_of_success. now apply isSuccess_iff.
  - rewrite format_of_failure.
    + rewrite StrFacts.empty_decide.
      unfold bool_decide. now destruct (decide_rel eq (_message r) "").
    + apply not_true_is_false. now rewrite isSuccess_iff.
Qed.

(** C4. A Result built from a code holds that code and an empty message;
    it is a success exactly when the code is [ErrorTrait::success];
    [isFailure] is the negation of [isSuccess] on every Result; built
    with no argument, the code is [ErrorTrait::defaultError]. *)
Theorem construct_classify c :
  getErrorCode (Result_ctor c) = c
  ∧ getMessage (Result_ctor c) = ""
  ∧ (isSuccess (Result_ctor c) = true ↔ c = success)
  ∧ (∀ r, isFailure r = negb (isSuccess r))
  ∧ getErrorCode (@Result_default T) = defaultError.
Proof.
  split; [reflexivity|]. split; [reflexivity|].
  split; [apply (isSuccess_iff (Result_ctor c))|].
  split; [intros r; apply isFailure_negb | reflexivity].
Qed.

(** C5. [operator==] holds exactly when the two codes are equal; the
    messages play no part. *)
Theorem eq_codes_only r1 r2 :
  (Result_eqb r1 r2 = true ↔ _errorCode r1 = _errorCode r2)
  ∧ (∀ m1 m2,
       Result_eqb (mkResult (_errorCode r1) m1) (mkResult (_errorCode r2) m2)
       = Result_eqb r1 r2).
Proof.
  split; [apply bool_decide_eq_true | reflexivity].
Qed.

(** C6. From any state the cell of [success()] can be in, a call returns
    a success with an empty message that formats to [Success]; a second
    call returns the same object, so the two compare equal and both
    format to [Success]. *)
Theorem success_factory (cell : static_cell (T:=T)) :
  cell_reachable cell →
  let first := Result_success cell in
  let second := Result_success first.2 in
  isSuccess first.1 = true
  ∧ getMessage first.1 = ""
  ∧ format first.1 = "Success"
  ∧ second.1 = first.1
  ∧ Result_eqb first.1 second.1 = true
  ∧ format second.1 = "Success"
  ∧ cell_reachable second.2.
Proof.
  intros [-> | ->]; simpl.
  - assert (Hs : isSuccess (Result_ctor (T:=T) success) = true)
      by now apply isSuccess_iff.
    repeat split; try (now apply format_of_success).
    + exact Hs.
    + now apply bool_decide_eq_true.
    + now right.
  - assert (Hs : isSuccess (Result_ctor (T:=T) success) = true)
      by now apply isSuccess_iff.
    repeat split; try (now apply format_of_success).
    + exact Hs.
    + now apply bool_decide_eq_true.
    + now right.
Qed.

End ValueFacts.

Lemma success_factory_witness :
  let first := Result_success (T:=Samples.FileError) None in
  let second := Result_success first.2 in
  isSuccess first.1 = true
  ∧ getMessage first.1 = ""
  ∧ format first.1 = "Success"
  ∧ second.1 = first.1
  ∧ Result_eqb first.1 second.1 = true
  ∧ format second.1 = "Success"
  ∧ cell_reachable second.2.
Proof. apply (success_factory (T:=Samples.FileError) None). now left. Defined.

(** ** The state monad *)

Section MonadFacts.
Context {T : ErrorTrait}.
Implicit Types (h : heap T) (l res this : loc) (r v : Result T).

Lemma bind_run {A B} (m : M T A) (k : A → M T B) h a h' :
  m h = Some (a, h') → (m ≫= k) h = k a h'.
Proof. intros H. unfold mbind, M_bind. now rewrite H. Qed.

Lemma bind_fail {A B} (m : M T A) (k : A → M T B) h :
  m h = None → (m ≫= k) h = None.
Proof. intros H. unfold mbind, M_bind. now rewrite H. Qed.

Lemma ret_run {A} (a : A) h : (mret a : M T A) h = Some (a, h).
Proof. reflexivity. Qed.

Lemma load_run h l r : h !! l = Some r → load l h = Some (r, h).
Proof. intros H. unfold load. now rewrite H. Qed.

Lemma store_run h l r v :
  h !! l = Some r → store l v h = Some (tt, <[l := v]> h).
Proof. intros H. unfold store. now rewrite H. Qed.

Lemma alloc_run h r : alloc r h = Some (length h, h ++ [r]).
Proof. reflexivity. Qed.

Lemma lookup_alloc h r : (h ++ [r]) !! length h = Some r.
Proof. rewrite lookup_app_r by lia. now rewrite Nat.sub_diag. Qed.

Lemma lookup_alloc_old h r l x : h !! l = Some x → (h ++ [r]) !! l = Some x.
Proof. intros H. now apply lookup_app_l_Some. Qed.

Lemma lookup_store h l r v : h !! l = Some r → <[l := v]> h !! l = Some v.
Proof.
  intros H. apply list_lookup_insert_eq. now apply lookup_lt_Some in H.
Qed.

Lemma store_same h l r : h !! l = Some r → <[l := r]> h = h.
Proof. apply list_insert_id. Qed.

Lemma store_store h l v w : <[l := w]> (<[l := v]> h) = <[l := w]> h.
Proof. apply list_insert_insert_eq. Qed.

End MonadFacts.

(** ** The two [Append::run] and [operator<<] *)

Section AppendFacts.
Context {T : ErrorTrait}.
Implicit Types (h : heap T) (l res this : loc) (r v : Result T).
Implicit Types (data : ResultRef) (aT : Operand).

Lemma message_append_nil r : message_append r "" = r.
Proof.
  destruct r as [c m]. unfold message_append; simpl.
  now rewrite StrFacts.app_nil_r.
Qed.

Lemma message_append_app r s t :
  message_append (message_append r s) t = message_append r (s +:+ t).
Proof.
  unfold message_append; simpl. now rewrite StrFacts.app_assoc.
Qed.

Lemma after_separator_eq h res r :
  h !! res = Some r →
  after_separator h res
  = <[res := message_append r (separator (_message r))]> h.
Proof.
  intros H. unfold after_separator, separator. rewrite H.
  destruct (Str.empty (_message r)); [|reflexivity].
  rewrite message_append_nil. symmetry. now apply store_same.
Qed.

Lemma after_separator_lookup h res r :
  h !! res = Some r →
  after_separator h res !! res
  = Some (message_append r (separator (_message r))).
Proof.
  intros H. rewrite (after_separator_eq h res r H).
  now apply lookup_store with r.
Qed.

Lemma after_separator_other h res l :
  l ≠ res → after_separator h res !! l = h !! l.
Proof.
  intros Hne. unfold after_separator.
  destruct (h !! res) as [r|] eqn:H; [|reflexivity].
  destruct (Str.empty (_message r)); [reflexivity|].
  apply list_lookup_insert_ne. congruence.
Qed.

(** A reference to another object is read the same before and after the
    separator is written. *)
Lemma format_in_after_separator h res data :
  data ≠ Here res →
  format_in (after_separator h res) data = format_in h data.
Proof.
  intros Hne. destruct data as [l|E v]; [|reflexivity].
  simpl. rewrite after_separator_other; [reflexivity | congruence].
Qed.

Lemma format_in_live h data : ref_live h data → is_Some (format_in h data).
Proof.
  destruct data as [l|E v]; simpl; [|eauto].
  intros [x ->]. eauto.
Qed.

Lemma ref_live_after_separator h res data :
  ref_live h data → ref_live (after_separator h res) data.
Proof.
  destruct data as [l|E v]; simpl; [|auto].
  intros Hl. destruct (decide (l = res)) as [->|Hne].
  - destruct Hl as [r Hr]. rewrite (after_separator_lookup _ _ _ Hr). eauto.
  - now rewrite after_separator_other.
Qed.

Lemma Append_run_exec {D} `{Streamable D} h res r (d : D) :
  h !! res = Some r →
  Append_run res d h
  = Some (tt, <[res := message_append r (stream_out d)]> h).
Proof.
  intros Hr. unfold Append_run.
  rewrite (bind_run _ _ h r h (load_run _ _ _ Hr)).
  now apply store_run with r.
Qed.

Lemma Append_Result_run_exec h res data r f :
  h !! res = Some r →
  format_in (after_separator h res) data = Some f →
  Append_Result_run res data h
  = Some (tt, <[res := message_append r (separator (_message r) +:+ f)]> h).
Proof.
  intros Hr Hf. unfold Append_Result_run.
  rewrite (bind_run _ _ h r h (load_run _ _ _ Hr)).
  assert (Hsep :
    (if negb (Str.empty (_message r))
     then store res (message_append r ": ") else mret tt) h
    = Some (tt, after_separator h res)).
  { unfold after_separator. rewrite Hr.
    destruct (Str.empty (_message r)); simpl;
      [reflexivity | now apply store_run with r]. }
  rewrite (bind_run _ _ _ _ _ Hsep).
  assert (Hfmt : format_at data (after_separator h res)
                 = Some (f, after_separator h res))
    by (unfold format_at; now rewrite Hf).
  rewrite (bind_run _ _ _ _ _ Hfmt).
  pose proof (after_separator_lookup h res r Hr) as Hr1.
  rewrite (bind_run _ _ _ _ _ (load_run _ _ _ Hr1)).
  rewrite (store_run _ _ _ _ Hr1).
  rewrite (after_separator_eq h res r Hr), store_store.
  now rewrite message_append_app.
Qed.

Lemma appended_live h this aT r :
  h !! this = Some r → operand_live h aT → is_Some (appended h this aT).
Proof.
  intros Hr Hl. destruct aT as [D HD x|d]; simpl; [eauto|].
  rewrite Hr; simpl.
  destruct (format_in_live (after_separator h this) d) as [f Hf].
  { now apply ref_live_after_separator. }
  rewrite Hf. simpl. eauto.
Qed.

(** One call of [operator<<]: the receiver's message grows by the
    appended text, and the value returned is the receiver's new state. *)
Lemma operator_shl_exec h this aT r t :
  h !! this = Some r →
  appended h this aT = Some t →
  operator_shl this aT h
  = Some (message_append r t, <[this := message_append r t]> h).
Proof.
  intros Hr Ht. unfold operator_shl.
  assert (Hrun :
    match aT with
    | Streamed d => Append_run this d
    | Nested d => Append_Result_run this d
    end h = Some (tt, <[this := message_append r t]> h)).
  { destruct aT as [D HD x|d]; simpl in Ht.
    - injection Ht as <-. now apply Append_run_exec.
    - rewrite Hr in Ht; simpl in Ht.
      destruct (format_in (after_separator h this) d) as [f|] eqn:Hf;
        [|discriminate].
      injection Ht as <-. now apply Append_Result_run_exec. }
  rewrite (bind_run _ _ _ _ _ Hrun).
  apply load_run. now apply lookup_store with r.
Qed.

End AppendFacts.

(** ** Appending: separator, growth, identity *)

Section AppendProperties.
Context {T : ErrorTrait}.
Implicit Types (h : heap T) (l res this : loc) (r v : Result T).
Implicit Types (data a b : ResultRef) (aT : Operand).

Lemma separator_decide (m : string) :
  separator m = if decide (m = "") then "" else ": ".
Proof. now destruct m. Qed.

Lemma format_in_not_empty h data f :
  format_in h data = Some f → Str.empty f = false.
Proof.
  destruct data as [l|E v]; simpl.
  - destruct (h !! l) as [x|]; simpl; [|discriminate].
    intros [= <-]. apply format_not_empty.
  - intros [= <-]. apply format_not_empty.
Qed.

Lemma after_separator_empty h res r :
  h !! res = Some r → _message r = "" → after_separator h res = h.
Proof.
  intros Hr Hm. unfold after_separator. now rewrite Hr, Hm.
Qed.

(** When the argument is the receiver itself, [format] is evaluated on
    the receiver as the separator step left it. *)
Lemma Append_Result_run_self h res r :
  h !! res = Some r →
  let r1 := message_append r (separator (_message r)) in
  Append_Result_run res (Here res) h
  = Some (tt, <[res := message_append r1 (format r1)]> h).
Proof.
  intros Hr r1. subst r1. rewrite message_append_app.
  apply Append_Result_run_exec; [exact Hr|].
  simpl. now rewrite (after_separator_lookup h res r Hr).
Qed.

(** C3. A nested append to [res] writes [: ] exactly when the message of
    [res] is not empty, and then writes what [format] returns for the
    argument at that point.  For an argument other than [res] itself, and
    whenever no separator is written, that is the argument's [format]
    before the call.  From an empty message, appending [a] and then [b]
    leaves the two formats joined by one [: ], with nothing in front. *)
Theorem nested_append_separator h res a r fa :
  h !! res = Some r →
  format_in (after_separator h res) a = Some fa →
  let sep := if decide (_message r = "") then "" else ": " in
  let h1 := <[res := mkResult (_errorCode r) (_message r +:+ sep +:+ fa)]> h in
  Append_Result_run res a h = Some (tt, h1)
  ∧ (a ≠ Here res → format_in h a = Some fa)
  ∧ (_message r = "" → format_in h a = Some fa)
  ∧ (∀ b fb,
       _message r = "" →
       format_in (after_separator h1 res) b = Some fb →
       (Append_Result_run res a;; Append_Result_run res b) h
       = Some (tt, <[res := mkResult (_errorCode r)
                                     (fa +:+ ": " +:+ fb)]> h)).
Proof.
  intros Hr Hfa sep h1.
  assert (Hrun : Append_Result_run res a h = Some (tt, h1)).
  { rewrite (Append_Result_run_exec h res a r fa Hr Hfa).
    subst h1 sep. now rewrite separator_decide. }
  split; [exact Hrun|]. split; [|split].
  - intros Hne. now rewrite <- (format_in_after_separator h res a Hne).
  - intros Hm. now rewrite <- (after_separator_empty h res r Hr Hm).
  - intros b fb Hm Hfb.
    rewrite (bind_run _ _ _ _ _ Hrun).
    assert (Hr1 : h1 !! res
                  = Some (mkResult (_errorCode r) (_message r +:+ sep +:+ fa)))
      by (subst h1; now apply lookup_store with r).
    rewrite (Append_Result_run_exec h1 res b _ fb Hr1 Hfb).
    assert (Hmsg : _message r +:+ sep +:+ fa = fa)
      by (subst sep; rewrite Hm; reflexivity).
    subst h1. rewrite store_store. unfold message_append; simpl.
    rewrite Hmsg. unfold separator.
    now rewrite (format_in_not_empty _ _ _ Hfa).
Qed.

Lemma isSuccess_in_format h this s :
  isSuccess_in h s = Some true →
  format_in (after_separator h this) s = Some "Success".
Proof.
  destruct s as [l|E v]; simpl.
  - destruct (h !! l) as [x|] eqn:Hx; simpl; [|discriminate].
    intros [= Hs].
    destruct (decide (l = this)) as [->|Hne].
    + rewrite (after_separator_lookup h this x Hx). simpl.
      now rewrite format_of_success.
    + rewrite after_separator_other by exact Hne.
      rewrite Hx. simpl. now rewrite format_of_success.
  - intros [= Hs]. now rewrite format_of_success.
Qed.

(** C8. Appending a Result that is a success is not skipped: the text
    [Success] is added to the receiver's message, after [: ] when that
    message was not empty. *)
Theorem nested_append_of_success h this s r :
  h !! this = Some r →
  isSuccess_in h s = Some true →
  let v := mkResult (_errorCode r)
             (_message r +:+ (if decide (_message r = "") then "" else ": ")
              +:+ "Success") in
  operator_shl this (Nested s) h = Some (v, <[this := v]> h).
Proof.
  intros Hr Hs v.
  rewrite (operator_shl_exec h this (Nested s) r
             (separator (_message r) +:+ "Success") Hr).
  - subst v. unfold message_append. now rewrite separator_decide.
  - simpl. rewrite Hr. simpl.
    now rewrite (isSuccess_in_format h this s Hs).
Qed.

(** C7. Any [operator<<] call, of either kind, returns; it leaves the
    receiver's code as it was, and the message it had is a prefix of the
    message it has afterwards, so the message does not get shorter and
    the receiver stays a success or a failure as before.  No other
    object changes. *)
Theorem append_only h this aT r :
  h !! this = Some r →
  operand_live h aT →
  ∃ v h',
    operator_shl this aT h = Some (v, h')
    ∧ h' !! this = Some v
    ∧ _errorCode v = _errorCode r
    ∧ Str.is_prefix (_message r) (_message v)
    ∧ String.length (_message r) ≤ String.length (_message v)
    ∧ isSuccess v = isSuccess r
    ∧ isFailure v = isFailure r
    ∧ length h' = length h
    ∧ (∀ l, l ≠ this → h' !! l = h !! l).
Proof.
  intros Hr Hl.
  destruct (appended_live h this aT r Hr Hl) as [t Ht].
  exists (message_append r t), (<[this := message_append r t]> h).
  split; [now apply operator_shl_exec|].
  split; [now apply lookup_store with r|].
  split; [reflexivity|].
  split; [simpl; auto with result|].
  split; [apply StrFacts.is_prefix_length; simpl; auto with result|].
  split; [reflexivity|]. split; [reflexivity|].
  split; [apply length_insert|].
  intros l Hne. apply list_lookup_insert_ne. congruence.
Qed.

(** C9. Appending the empty string literal changes nothing: the heap is
    the same afterwards, and the value returned is the receiver as it
    was, so code, message and [format] are unchanged. *)
Theorem append_empty_string h this r :
  h !! this = Some r →
  operator_shl this (Streamed "") h = Some (r, h)
  ∧ (∀ v h', operator_shl this (Streamed "") h = Some (v, h') →
       _errorCode v = _errorCode r ∧ _message v = _message r
       ∧ format v = format r ∧ h' !! this = Some r).
Proof.
  intros Hr.
  assert (Hrun : operator_shl this (Streamed "") h = Some (r, h)).
  { rewrite (operator_shl_exec h this (Streamed "") r "" Hr eq_refl).
    rewrite message_append_nil. now rewrite (store_same h this r Hr). }
  split; [exact Hrun|].
  intros v h'. rewrite Hrun. intros [= <- <-]. auto.
Qed.

End AppendProperties.

(** ** Chained calls and the translating constructor *)

Section ChainProperties.
Context {T : ErrorTrait}.
Implicit Types (h : heap T) (l res this : loc) (r v : Result T).
Implicit Types (data : ResultRef) (aT a b : Operand).

Lemma store_alloc h r v : <[length h := v]> (h ++ [r]) = h ++ [v].
Proof.
  rewrite insert_app_r_alt by lia. now rewrite Nat.sub_diag.
Qed.

Lemma ref_live_alloc h data r : ref_live h data → ref_live (h ++ [r]) data.
Proof.
  destruct data as [l|E v]; simpl; [|auto].
  intros [x Hx]. exists x. now apply lookup_alloc_old.
Qed.

Lemma ref_live_store h data l v : ref_live h data → ref_live (<[l := v]> h) data.
Proof.
  destruct data as [k|E w]; simpl; [|auto].
  intros Hk. apply lookup_lt_is_Some_2. rewrite length_insert.
  now apply lookup_lt_is_Some_1.
Qed.

Lemma operand_live_next h aT l v r :
  operand_live h aT → operand_live (<[l := v]> h ++ [r]) aT.
Proof.
  destruct aT as [D HD x|d]; simpl; [auto|].
  intros Hd. now apply ref_live_alloc, ref_live_store.
Qed.

Lemma format_in_alloc h data r f :
  format_in h data = Some f → format_in (h ++ [r]) data = Some f.
Proof.
  destruct data as [l|E v]; simpl; [|auto].
  destruct (h !! l) as [x|] eqn:Hx; simpl; [|discriminate].
  intros [= <-]. now rewrite (lookup_alloc_old h r l x Hx).
Qed.

Lemma isFailure_in_live h data :
  ref_live h data → is_Some (isFailure_in h data).
Proof.
  destruct data as [l|E v]; simpl; [|eauto].
  intros [x ->]. eauto.
Qed.

(** C10. A call of [operator<<] writes the receiver in place and returns
    a value equal to the receiver as written.  In [r << a << b] the
    second call has that value, materialised as a temporary, as its
    receiver: the value of the expression is the message of [r] followed
    by what [a] adds and then what [b] adds, under the code of [r]. *)
Theorem shl_copy_chain h this a b r :
  h !! this = Some r →
  operand_live h a →
  operand_live h b →
  ∃ v1 v2 ta tb,
    operator_shl this a h = Some (v1, <[this := v1]> h)
    ∧ <[this := v1]> h !! this = Some v1
    ∧ appended h this a = Some ta
    ∧ v1 = mkResult (_errorCode r) (_message r +:+ ta)
    ∧ operator_shl (length h) b (<[this := v1]> h ++ [v1])
      = Some (v2, <[this := v1]> h ++ [v2])
    ∧ appended (<[this := v1]> h ++ [v1]) (length h) b = Some tb
    ∧ v2 = mkResult (_errorCode r) (_message r +:+ ta +:+ tb)
    ∧ shl_chain this a b h = Some (v2, <[this := v1]> h ++ [v2]).
Proof.
  intros Hr Ha Hb.
  destruct (appended_live h this a r Hr Ha) as [ta Hta].
  set (v1 := message_append r ta).
  set (h1 := <[this := v1]> h).
  assert (Hlen : length h1 = length h) by apply length_insert.
  assert (Htmp : (h1 ++ [v1]) !! length h = Some v1)
    by (rewrite <- Hlen; apply lookup_alloc).
  destruct (appended_live (h1 ++ [v1]) (length h) b v1 Htmp) as [tb Htb].
  { now apply operand_live_next. }
  assert (H1 : operator_shl this a h = Some (v1, h1))
    by now apply operator_shl_exec.
  assert (H2 : operator_shl (length h) b (h1 ++ [v1])
               = Some (message_append v1 tb, h1 ++ [message_append v1 tb])).
  { rewrite (operator_shl_exec _ _ _ _ _ Htmp Htb).
    now rewrite <- Hlen, store_alloc. }
  exists v1, (message_append v1 tb), ta, tb.
  split; [exact H1|].
  split; [now apply lookup_store with r|].
  split; [exact Hta|]. split; [reflexivity|].
  split; [exact H2|]. split; [exact Htb|].
  split.
  { subst v1. unfold message_append; simpl.
    now rewrite StrFacts.app_assoc. }
  unfold shl_chain.
  rewrite (bind_run _ _ _ _ _ H1).
  rewrite (bind_run _ _ _ _ _ (alloc_run h1 v1)).
  now rewrite Hlen.
Qed.

(** C2. The translating constructor creates one new object.  When the
    input is a failure the object holds [failureCode] and its message is
    the [format] of the input, with nothing before it; when the input is
    a success it holds [successCode] (with the default argument,
    [ErrorTrait::success]) and an empty message. *)
Theorem translate_construct h inputResult failureCode successCode :
  ref_live h inputResult →
  ∃ failed f,
    isFailure_in h inputResult = Some failed
    ∧ format_in h inputResult = Some f
    ∧ Result_translate inputResult failureCode successCode h
      = Some (length h,
              h ++ [if failed then mkResult failureCode f
                    else mkResult successCode ""])
    ∧ Result_translate_default inputResult failureCode h
      = Some (length h,
              h ++ [if failed then mkResult failureCode f
                    else mkResult success ""]).
Proof.
  intros Hl.
  destruct (isFailure_in_live h inputResult Hl) as [failed Hfail].
  destruct (format_in_live h inputResult Hl) as [f Hf].
  exists failed, f. split; [exact Hfail|]. split; [exact Hf|].
  assert (Hgen : ∀ sc,
    Result_translate inputResult failureCode sc h
    = Some (length h,
            h ++ [if failed then mkResult failureCode f
                  else mkResult sc ""])).
  { intros sc. unfold Result_translate.
    assert (Hq : isFailure_at inputResult h = Some (failed, h))
      by (unfold isFailure_at; now rewrite Hfail).
    rewrite (bind_run _ _ _ _ _ Hq).
    destruct failed; [|reflexivity].
    set (r0 := mkResult failureCode "" : Result T).
    rewrite (bind_run _ _ _ _ _ (alloc_run h r0)).
    assert (Hthis : (h ++ [r0]) !! length h = Some r0) by apply lookup_alloc.
    assert (Hadd : appended (h ++ [r0]) (length h) (Nested inputResult)
                   = Some f).
    { unfold appended. rewrite Hthis. simpl.
      rewrite (after_separator_empty _ _ r0 Hthis eq_refl).
      now rewrite (format_in_alloc h inputResult r0 f Hf). }
    rewrite (bind_run _ _ _ _ _
               (operator_shl_exec _ _ _ _ _ Hthis Hadd)).
    rewrite ret_run, store_alloc. reflexivity. }
  split; [apply Hgen | apply (Hgen success)].
Qed.

End ChainProperties.

(** ** The properties at concrete inputs *)

Module Runs.
Import Samples.

Example format_not_found : format not_found = "Code 1: not found".
Proof. reflexivity. Qed.

Example format_with_message :
  operator_shl 0 (Streamed "file.txt") [not_found]
  = Some (mkResult NOT_FOUND "file.txt", [mkResult NOT_FOUND "file.txt"])
  ∧ format (mkResult (T:=FileError) NOT_FOUND "file.txt")
    = "Code 1: not found (file.txt)".
Proof. split; reflexivity. Qed.

Example format_negative_code :
  stream_out (-120)%Z = "-120".
Proof. reflexivity. Qed.

Example translate_failure :
  Result_translate (Elsewhere cause_x) IO_ERROR OK ([] : heap FileError)
  = Some (0, [mkResult IO_ERROR "Code 1: X"]).
Proof. reflexivity. Qed.

Example translate_same_trait :
  Result_translate (Here 0) IO_ERROR OK [not_found]
  = Some (1, [not_found; mkResult IO_ERROR "Code 1: not found"]).
Proof. reflexivity. Qed.

Example translate_success :
  Result_translate_default (Elsewhere (@Result_ctor Cause NoCause)) IO_ERROR
    ([] : heap FileError)
  = Some (0, [mkResult OK ""]).
Proof. reflexivity. Qed.

(** [r << a << b]: the receiver keeps the first append only, the value
    of the expression has both. *)
Example chain_of_strings :
  shl_chain 0 (Streamed "file") (Streamed ".txt") [not_found]
  = Some (mkResult NOT_FOUND "file.txt",
          [mkResult NOT_FOUND "file"; mkResult NOT_FOUND "file.txt"]).
Proof. reflexivity. Qed.

Example chain_of_causes :
  shl_chain 0 (Nested (Elsewhere cause_x)) (Nested (Elsewhere cause_y))
    [@Result_default FileError]
  = Some (mkResult IO_ERROR "Code 1: X: Code 2: Y",
          [mkResult IO_ERROR "Code 1: X";
           mkResult IO_ERROR "Code 1: X: Code 2: Y"]).
Proof. reflexivity. Qed.

(** [r << r] on a failure with a message: the text appended is the
    [format] of [r] with the separator already at the end of its
    message. *)
Example append_to_itself :
  operator_shl 0 (Nested (Here 0)) [mkResult NOT_FOUND "m"]
  = Some (mkResult NOT_FOUND "m: Code 1: not found (m: )",
          [mkResult NOT_FOUND "m: Code 1: not found (m: )"]).
Proof. reflexivity. Qed.

Example append_success_value :
  operator_shl 0 (Nested (Elsewhere (@Result_ctor Cause NoCause)))
    [mkResult NOT_FOUND "m"]
  = Some (mkResult NOT_FOUND "m: Success", [mkResult NOT_FOUND "m: Success"]).
Proof. reflexivity. Qed.

End Runs.

Module Witnesses.
Import Samples.

Lemma translate_construct_witness :
  ∃ failed f,
    isFailure_in [not_found] (Here 0) = Some failed
    ∧ format_in [not_found] (Here 0) = Some f
    ∧ Result_translate (Here 0) IO_ERROR OK [not_found]
      = Some (1, [not_found] ++ [if failed then mkResult IO_ERROR f
                                  else mkResult OK ""])
    ∧ Result_translate_default (Here 0) IO_ERROR [not_found]
      = Some (1, [not_found] ++ [if failed then mkResult IO_ERROR f
                                  else mkResult success ""]).
Proof.
  apply (translate_construct [not_found] (Here 0) IO_ERROR OK).
  simpl. eauto.
Defined.

Lemma nested_append_separator_witness :
  (Append_Result_run 0 (Elsewhere cause_x);;
   Append_Result_run 0 (Elsewhere cause_y)) [@Result_default FileError]
  = Some (tt, [mkResult IO_ERROR "Code 1: X: Code 2: Y"]).
Proof.
  destruct (nested_append_separator [@Result_default FileError] 0
              (Elsewhere cause_x) Result_default "Code 1: X"
              eq_refl eq_refl) as (_ & _ & _ & Hchain).
  exact (Hchain (Elsewhere cause_y) "Code 2: Y" eq_refl eq_refl).
Defined.

Lemma append_only_witness :
  ∃ (v : Result FileError) h',
    operator_shl 0 (Nested (Here 0)) [not_found_m] = Some (v, h')
    ∧ h' !! 0 = Some v
    ∧ _errorCode v = NOT_FOUND
    ∧ Str.is_prefix "m" (_message v)
    ∧ 1 ≤ String.length (_message v)
    ∧ isSuccess v = false
    ∧ isFailure v = true
    ∧ length h' = 1
    ∧ (∀ l, l ≠ 0 → h' !! l = [not_found_m] !! l).
Proof.
  apply (append_only (T:=FileError) [not_found_m] 0
           (Nested (Here 0)) not_found_m eq_refl).
  simpl. eauto.
Defined.

Lemma nested_append_of_success_witness :
  operator_shl 0 (Nested (Elsewhere (@Result_ctor Cause NoCause)))
    [not_found_m]
  = Some (mkResult NOT_FOUND "m: Success", [mkResult NOT_FOUND "m: Success"]).
Proof.
  exact (nested_append_of_success (T:=FileError) [not_found_m] 0
           (Elsewhere (@Result_ctor Cause NoCause))
           not_found_m eq_refl eq_refl).
Defined.

Lemma append_empty_string_witness :
  operator_shl 0 (Streamed "") [not_found_m]
  = Some (mkResult NOT_FOUND "m", [not_found_m]).
Proof.
  exact (proj1 (append_empty_string (T:=FileError)
                  [not_found_m] 0
                  not_found_m eq_refl)).
Defined.

Lemma shl_copy_chain_witness :
  ∃ v1 v2 ta tb,
    operator_shl 0 (Streamed "file") [not_found]
    = Some (v1, <[0 := v1]> [not_found])
    ∧ <[0 := v1]> [not_found] !! 0 = Some v1
    ∧ appended [not_found] 0 (Streamed "file") = Some ta
    ∧ v1 = mkResult NOT_FOUND ("" +:+ ta)
    ∧ operator_shl 1 (Streamed ".txt") (<[0 := v1]> [not_found] ++ [v1])
      = Some (v2, <[0 := v1]> [not_found] ++ [v2])
    ∧ appended (<[0 := v1]> [not_found] ++ [v1]) 1 (Streamed ".txt") = Some tb
    ∧ v2 = mkResult NOT_FOUND ("" +:+ ta +:+ tb)
    ∧ shl_chain 0 (Streamed "file") (Streamed ".txt") [not_found]
      = Some (v2, <[0 := v1]> [not_found] ++ [v2]).
Proof.
  exact (shl_copy_chain [not_found] 0 (Streamed "file") (Streamed ".txt")
           not_found eq_refl I I).
Defined.

End Witnesses.

(** * Further properties *)

(** ** More on strings *)

Module StrMore.

Lemma app_inj_last (s t : string) (c : ascii) :
  s +:+ String c "" = t +:+ String c "" → s = t.
Proof.
  revert t. induction s as [|a s IH]; intros [|b t] H.
  - reflexivity.
  - rewrite StrFacts.app_nil_l, StrFacts.app_cons in H.
    injection H as _ H. destruct t; discriminate H.
  - rewrite StrFacts.app_nil_l, StrFacts.app_cons in H.
    injection H as _ H. destruct s; discriminate H.
  - rewrite !StrFacts.app_cons in H. injection H as -> H.
    f_equal. now apply IH.
Qed.

Lemma concat_cons_cons (sep x y : string) (l : list string) :
  String.concat sep (x :: y :: l) = x +:+ sep +:+ String.concat sep (y :: l).
Proof. reflexivity. Qed.

Lemma concat_absorb (sep x y : string) (l : list string) :
  String.concat sep ((x +:+ sep +:+ y) :: l) = String.concat sep (x :: y :: l).
Proof.
  rewrite concat_cons_cons. destruct l as [|z l]; [reflexivity|].
  rewrite !concat_cons_cons. now rewrite !StrFacts.app_assoc.
Qed.

End StrMore.

(** ** Values *)

Section ValueMore.
Context {T : ErrorTrait}.
Implicit Types (r : Result T) (c : Code) (m : string).

(** The text before the message in the [format] of a failure. *)
Lemma format_head_failure r :
  isSuccess r = false →
  ∃ rest, format r = String "C" rest.
Proof.
  intros H. rewrite (format_of_failure r H). eexists. reflexivity.
Qed.

(** X1. [format] tells success from failure: it is the text [Success]
    exactly for a success, whatever [codeToString] returns. *)
Theorem format_success_iff r :
  format r = "Success" ↔ isSuccess r = true.
Proof.
  split; [|apply format_of_success].
  destruct (isSuccess r) eqn:H; [reflexivity|].
  destruct (format_head_failure r H) as [rest ->]. discriminate.
Qed.

(** X2. [operator==] is an equivalence relation; two Results that compare
    equal are classified alike and convert to the same code; a Result
    compares equal to the one [success()] hands out exactly when it is a
    success. *)
Theorem eq_equivalence r1 r2 r3 :
  Result_eqb r1 r1 = true
  ∧ Result_eqb r1 r2 = Result_eqb r2 r1
  ∧ (Result_eqb r1 r2 = true → Result_eqb r2 r3 = true →
     Result_eqb r1 r3 = true)
  ∧ (Result_eqb r1 r2 = true →
     isSuccess r1 = isSuccess r2 ∧ to_Code r1 = to_Code r2)
  ∧ (∀ cell, cell_reachable cell →
     Result_eqb r1 (Result_success cell).1 = isSuccess r1).
Proof.
  unfold Result_eqb, isSuccess, to_Code.
  split; [now apply bool_decide_eq_true|].
  split; [apply bool_decide_ext; split; congruence|].
  split.
  { rewrite !bool_decide_eq_true. congruence. }
  split.
  { rewrite bool_decide_eq_true. intros ->. auto. }
  intros cell [-> | ->]; reflexivity.
Qed.

(** X3. For failures the [format] loses nothing: two failing Results that
    compare equal and have the same [format] have the same message, so
    they are the same value. *)
Theorem format_keeps_message r1 r2 :
  isFailure r1 = true →
  Result_eqb r1 r2 = true →
  format r1 = format r2 →
  r1 = r2.
Proof.
  intros Hf Heq Hfmt.
  apply bool_decide_eq_true in Heq.
  assert (H1 : isSuccess r1 = false)
    by (unfold isFailure in Hf; now apply negb_true_iff).
  assert (H2 : isSuccess r2 = false)
    by (unfold isSuccess in *; now rewrite <- Heq).
  rewrite (format_of_failure r1 H1), (format_of_failure r2 H2) in Hfmt.
  rewrite <- Heq in Hfmt.
  do 4 apply String.app_inj in Hfmt.
  destruct r1 as [c1 m1], r2 as [c2 m2]; simpl in *. subst c2. f_equal.
  destruct m1 as [|a1 m1], m2 as [|a2 m2]; simpl in Hfmt;
    try reflexivity; try discriminate Hfmt.
  apply String.app_inj in Hfmt.
  now apply StrMore.app_inj_last in Hfmt.
Qed.

End ValueMore.

(** ** Appends and [format] *)

Section AppendMore.
Context {T : ErrorTrait}.
Implicit Types (h : heap T) (l res this : loc) (r v : Result T).
Implicit Types (data d : ResultRef) (aT : Operand).

Lemma operator_shl_dangling h this aT :
  h !! this = None → operator_shl this aT h = None.
Proof.
  intros Hn. unfold operator_shl. apply bind_fail.
  destruct aT as [D HD x|d].
  - unfold Append_run. apply bind_fail. unfold load. now rewrite Hn.
  - unfold Append_Result_run. apply bind_fail. unfold load. now rewrite Hn.
Qed.

(** X4. Streaming [x] and then [y] into the same Result is the same as
    streaming their two texts at once: same heap, same value returned,
    and no separator in between. *)
Theorem append_twice {D E} `{Streamable D} `{Streamable E}
    h this (x : D) (y : E) :
  (operator_shl this (Streamed x);; operator_shl this (Streamed y)) h
  = operator_shl this (Streamed (stream_out x +:+ stream_out y)) h.
Proof.
  destruct (h !! this) as [r|] eqn:Hr.
  - rewrite (bind_run _ _ _ _ _
               (operator_shl_exec h this (Streamed x) r _ Hr eq_refl)).
    rewrite (operator_shl_exec _ this (Streamed y) _ _
               (lookup_store h this r _ Hr) eq_refl).
    rewrite (operator_shl_exec h this
               (Streamed (stream_out x +:+ stream_out y)) r _ Hr eq_refl).
    now rewrite store_store, message_append_app.
  - rewrite (operator_shl_dangling h this _ Hr).
    apply bind_fail. now apply operator_shl_dangling.
Qed.

(** X5. After text is streamed into a failure, [format] shows the whole
    message, old and new, between [ (] and [)] after the code and its
    description. *)
Theorem format_after_append {D} `{Streamable D} h this r (x : D) :
  h !! this = Some r →
  isFailure r = true →
  stream_out x ≠ "" →
  ∃ v,
    operator_shl this (Streamed x) h = Some (v, <[this := v]> h)
    ∧ format v =
        "Code " +:+ pretty (static_cast_int (_errorCode r)) +:+ ": " +:+
        codeToString (_errorCode r) +:+
        " (" +:+ _message r +:+ stream_out x +:+ ")".
Proof.
  intros Hr Hf Hx.
  exists (message_append r (stream_out x)).
  split; [now apply operator_shl_exec|].
  rewrite format_of_failure
    by (unfold isFailure in Hf; now apply negb_true_iff in Hf).
  simpl. rewrite StrFacts.empty_app.
  apply StrFacts.empty_false in Hx. rewrite Hx, andb_false_r.
  now rewrite StrFacts.app_assoc.
Qed.

(** X6. A nested append never leaves the message as it was: the message
    gets strictly longer and is not empty afterwards, also when the
    appended Result is a success. *)
Theorem nested_append_grows h this d r :
  h !! this = Some r →
  ref_live h d →
  ∃ v,
    operator_shl this (Nested d) h = Some (v, <[this := v]> h)
    ∧ String.length (_message r) < String.length (_message v)
    ∧ Str.empty (_message v) = false.
Proof.
  intros Hr Hd.
  destruct (format_in_live (after_separator h this) d) as [f Hf].
  { now apply ref_live_after_separator. }
  assert (Hne : Str.empty f = false) by now apply format_in_not_empty in Hf.
  exists (message_append r (separator (_message r) +:+ f)).
  split.
  { apply operator_shl_exec; [exact Hr|].
    unfold appended. rewrite Hr. simpl. now rewrite Hf. }
  simpl. split.
  - rewrite !StrFacts.length_app. destruct f; [discriminate|simpl; lia].
  - rewrite !StrFacts.empty_app, Hne. now rewrite !andb_false_r.
Qed.

(** X7. [r << r]: when [r] is a success or has an empty message, the text
    added is the separator and the [format] [r] had before the call.  When
    [r] is a failure with a message, [format] is taken after the
    separator was written: the text added holds the old message followed
    by [: ] between the parentheses, two characters more than the
    [format] before the call. *)
Theorem append_to_self h res r :
  h !! res = Some r →
  ∃ v,
    operator_shl res (Nested (Here res)) h = Some (v, <[res := v]> h)
    ∧ (isSuccess r = true ∨ _message r = "" →
       _message v = _message r +:+ separator (_message r) +:+ format r)
    ∧ (isFailure r = true → _message r ≠ "" →
       _message v =
         _message r +:+ ": " +:+
         "Code " +:+ pretty (static_cast_int (_errorCode r)) +:+ ": " +:+
         codeToString (_errorCode r) +:+ " (" +:+ _message r +:+ ": )"
       ∧ String.length (_message v)
         = String.length (_message r) + 2 + (String.length (format r) + 2)).
Proof.
  intros Hr.
  set (r1 := message_append r (separator (_message r))).
  exists (message_append r1 (format r1)).
  split.
  { unfold operator_shl.
    rewrite (bind_run _ _ _ _ _ (Append_Result_run_self h res r Hr)).
    apply load_run. now apply lookup_store with r. }
  split.
  - intros [Hs | Hm].
    + subst r1. simpl. rewrite StrFacts.app_assoc.
      now rewrite !format_of_success.
    + subst r1. unfold separator. rewrite Hm. simpl.
      rewrite message_append_nil, Hm. reflexivity.
  - intros Hf Hm.
    assert (Hs : isSuccess r = false)
      by (unfold isFailure in Hf; now apply negb_true_iff in Hf).
    apply StrFacts.empty_false in Hm.
    assert (Hfmt1 : format r1 =
      "Code " +:+ pretty (static_cast_int (_errorCode r)) +:+ ": " +:+
      codeToString (_errorCode r) +:+ " (" +:+ _message r +:+ ": )").
    { rewrite format_of_failure by exact Hs.
      subst r1. unfold separator. rewrite Hm. simpl.
      rewrite StrFacts.empty_app, Hm. simpl.
      now rewrite StrFacts.app_assoc. }
    split.
    + subst r1. unfold separator at 1. rewrite Hm. simpl.
      rewrite Hfmt1. now rewrite StrFacts.app_assoc.
    + simpl. rewrite Hfmt1. rewrite (format_of_failure r Hs), Hm.
      subst r1. unfold separator. rewrite Hm. simpl.
      rewrite !StrFacts.length_app. simpl. lia.
Qed.

End AppendMore.

(** ** Translation, chains and cause trails *)

Section SequenceMore.
Context {T : ErrorTrait}.
Implicit Types (h : heap T) (l res this : loc) (r v : Result T).
Implicit Types (data d inputResult : ResultRef) (aT : Operand).

Lemma Result_translate_exec h inputResult failureCode successCode failed f :
  isFailure_in h inputResult = Some failed →
  format_in h inputResult = Some f →
  Result_translate inputResult failureCode successCode h
  = Some (length h,
          h ++ [if failed then mkResult failureCode f
                else mkResult successCode ""]).
Proof.
  intros Hfail Hf. unfold Result_translate.
  assert (Hq : isFailure_at inputResult h = Some (failed, h))
    by (unfold isFailure_at; now rewrite Hfail).
  rewrite (bind_run _ _ _ _ _ Hq).
  destruct failed; [|reflexivity].
  set (r0 := mkResult failureCode "" : Result T).
  rewrite (bind_run _ _ _ _ _ (alloc_run h r0)).
  assert (Hthis : (h ++ [r0]) !! length h = Some r0) by apply lookup_alloc.
  assert (Hadd : appended (h ++ [r0]) (length h) (Nested inputResult) = Some f).
  { unfold appended. rewrite Hthis. simpl.
    rewrite (after_separator_empty _ _ r0 Hthis eq_refl).
    now rewrite (format_in_alloc h inputResult r0 f Hf). }
  rewrite (bind_run _ _ _ _ _ (operator_shl_exec _ _ _ _ _ Hthis Hadd)).
  rewrite ret_run, store_alloc. reflexivity.
Qed.

Lemma isFailure_format_in h d :
  ref_live h d →
  ∃ failed f, isFailure_in h d = Some failed ∧ format_in h d = Some f
              ∧ Str.empty f = false.
Proof.
  intros Hl.
  destruct (isFailure_in_live h d Hl) as [failed Hfail].
  destruct (format_in_live h d Hl) as [f Hf].
  exists failed, f. split; [exact Hfail|]. split; [exact Hf|].
  now apply format_in_not_empty in Hf.
Qed.

(** X8. Translating with a [failureCode] other than [ErrorTrait::success]
    and the default [successCode] keeps the classification of the input:
    a success becomes the plain success of the new trait, a failure
    becomes a failure whose [format] carries the input's [format] in
    parentheses after the new code and its description. *)
Theorem translate_keeps_classification h inputResult failureCode :
  ref_live h inputResult →
  failureCode ≠ success →
  ∃ new f,
    Result_translate_default inputResult failureCode h
    = Some (length h, h ++ [new])
    ∧ format_in h inputResult = Some f
    ∧ isFailure_in h inputResult = Some (isFailure new)
    ∧ (isSuccess new = true → new = Result_ctor success)
    ∧ (isFailure new = true →
       format new =
         "Code " +:+ pretty (static_cast_int failureCode) +:+ ": " +:+
         codeToString failureCode +:+ " (" +:+ f +:+ ")").
Proof.
  intros Hl HF.
  destruct (isFailure_format_in h inputResult Hl) as (failed & f & Hfail & Hf & Hne).
  assert (HsF : ∀ m, isSuccess (mkResult (T:=T) failureCode m) = false)
    by (intros m; now apply bool_decide_eq_false).
  assert (HsS : ∀ m, isSuccess (mkResult (T:=T) success m) = true)
    by (intros m; now apply bool_decide_eq_true).
  exists (if failed then mkResult failureCode f else mkResult success ""), f.
  split; [now apply Result_translate_exec|]. split; [exact Hf|].
  destruct failed; unfold isFailure.
  - rewrite HsF. split; [exact Hfail|]. split; [discriminate|].
    intros _. rewrite format_of_failure by apply HsF. simpl.
    now rewrite Hne.
  - rewrite HsS. split; [exact Hfail|]. split; [reflexivity|discriminate].
Qed.

(** X9. The code given decides the classification, not the input: a
    failure translated with [ErrorTrait::success] as [failureCode] is a
    success.  The input's [format] is in its message, which is not empty,
    but its own [format] is just [Success]. *)
Theorem translate_failure_as_success h inputResult successCode :
  ref_live h inputResult →
  isFailure_in h inputResult = Some true →
  ∃ new,
    Result_translate inputResult success successCode h
    = Some (length h, h ++ [new])
    ∧ isSuccess new = true
    ∧ format_in h inputResult = Some (getMessage new)
    ∧ getMessage new ≠ ""
    ∧ format new = "Success".
Proof.
  intros Hl Hfail.
  destruct (isFailure_format_in h inputResult Hl)
    as (failed & f & Hfail' & Hf & Hne).
  rewrite Hfail in Hfail'. injection Hfail' as <-.
  assert (Hs : isSuccess (mkResult (T:=T) success f) = true)
    by now apply bool_decide_eq_true.
  exists (mkResult success f).
  split; [now apply (Result_translate_exec _ _ _ _ true f)|].
  split; [exact Hs|]. split; [exact Hf|].
  split; [now apply StrFacts.empty_false | now apply format_of_success].
Qed.

Lemma concat_nil_cons (x : string) (l : list string) :
  String.concat "" (x :: l) = x +:+ String.concat "" l.
Proof.
  destruct l as [|y l]; [simpl; now rewrite StrFacts.app_nil_r|].
  now rewrite StrMore.concat_cons_cons.
Qed.

Lemma shl_chain_from_streamed {D} `{Streamable D} (bs : list D) :
  ∀ v h, ∃ temps,
    length temps = length bs
    ∧ shl_chain_from v ((λ b, Streamed b) <$> bs) h
      = Some (message_append v (String.concat "" (stream_out <$> bs)),
              h ++ temps).
Proof.
  induction bs as [|b bs IH]; intros v h.
  - exists []. split; [reflexivity|]. simpl.
    now rewrite message_append_nil, app_nil_r.
  - set (v' := message_append v (stream_out b)).
    destruct (IH v' (h ++ [v'])) as (temps & Hlen & Hrun).
    exists (v' :: temps). split; [simpl; now rewrite Hlen|].
    rewrite fmap_cons. unfold shl_chain_from; fold shl_chain_from.
    rewrite (bind_run _ _ _ _ _ (alloc_run h v)).
    rewrite (bind_run _ _ _ _ _
               (operator_shl_exec (h ++ [v]) (length h) (Streamed b) v _
                  (lookup_alloc h v) eq_refl)).
    rewrite store_alloc. fold v'. rewrite Hrun.
    rewrite fmap_cons, concat_nil_cons. subst v'.
    rewrite message_append_app. now rewrite <- app_assoc.
Qed.

(** X10. [r << a << b1 << ... << bn] with streamable values: the value of
    the expression has the texts of [a], [b1], ..., [bn] after the message
    of [r], in that order; [r] itself has the text of [a] only, since each
    later call writes a temporary; the objects that were there before are
    otherwise unchanged and there is one temporary per later call. *)
Theorem chain_all_streamed {D E} `{Streamable D} `{Streamable E}
    h this r (a : D) (bs : list E) :
  h !! this = Some r →
  ∃ h',
    shl_chain_all this (Streamed a) ((λ b, Streamed b) <$> bs) h
    = Some (mkResult (_errorCode r)
              (_message r +:+ stream_out a
               +:+ String.concat "" (stream_out <$> bs)),
            h')
    ∧ h' !! this = Some (mkResult (_errorCode r) (_message r +:+ stream_out a))
    ∧ length h' = length h + length bs
    ∧ (∀ l x, l ≠ this → h !! l = Some x → h' !! l = Some x).
Proof.
  intros Hr.
  set (v1 := message_append r (stream_out a)).
  destruct (shl_chain_from_streamed bs v1 (<[this := v1]> h))
    as (temps & Hlen & Hrun).
  exists (<[this := v1]> h ++ temps).
  split.
  { unfold shl_chain_all.
    rewrite (bind_run _ _ _ _ _
               (operator_shl_exec h this (Streamed a) r _ Hr eq_refl)).
    fold v1. rewrite Hrun. subst v1. rewrite message_append_app.
    reflexivity. }
  split.
  { apply lookup_app_l_Some. now apply lookup_store with r. }
  split.
  { rewrite length_app, length_insert. lia. }
  intros l x Hne Hx. apply lookup_app_l_Some.
  rewrite list_lookup_insert_ne by congruence. exact Hx.
Qed.

(** The two-call chain is the chain with one later call. *)
Lemma shl_chain_all_one h this (a b : Operand) :
  shl_chain_all this a [b] h = shl_chain this a b h.
Proof.
  unfold shl_chain_all, shl_chain, mbind, M_bind.
  destruct (operator_shl this a h) as [[v h1]|]; [|reflexivity].
  simpl. unfold mbind, M_bind. simpl.
  destruct (operator_shl (length h1) b (h1 ++ [v])) as [[v' h2]|];
    reflexivity.
Qed.

Lemma format_in_store_other h res d v :
  d ≠ Here res → format_in (<[res := v]> h) d = format_in h d.
Proof.
  intros Hne. destruct d as [l|E w]; [|reflexivity].
  simpl. rewrite list_lookup_insert_ne; [reflexivity | congruence].
Qed.

Lemma formats_store_other h res v (ds : list ResultRef) (fs : list string) :
  Forall (λ d, d ≠ Here res) ds →
  Forall2 (λ d f, format_in h d = Some f) ds fs →
  Forall2 (λ d f, format_in (<[res := v]> h) d = Some f) ds fs.
Proof.
  intros Hne Hfs. induction Hfs as [|d f ds fs Hd Hfs IH]; [constructor|].
  apply Forall_cons in Hne as [Hd1 Hne].
  constructor; [|now apply IH].
  now rewrite format_in_store_other.
Qed.

Lemma shl_each_trail res (ds : list ResultRef) :
  ∀ (fs : list string) h r,
    h !! res = Some r →
    Forall (λ d, d ≠ Here res) ds →
    Forall2 (λ d f, format_in h d = Some f) ds fs →
    shl_each res ds h
    = Some (tt,
            <[res := mkResult (_errorCode r)
                       (String.concat ": "
                          (if Str.empty (_message r) then fs
                           else _message r :: fs))]> h).
Proof.
  induction ds as [|d ds IH]; intros fs h r Hr Hne Hfs.
  - apply Forall2_nil_inv_l in Hfs as ->. simpl.
    rewrite ret_run. f_equal. f_equal. symmetry.
    apply store_same. rewrite Hr. f_equal.
    destruct r as [c m]; simpl. now destruct m.
  - apply Forall2_cons_inv_l in Hfs as (f & fs' & Hf & Hfs' & ->).
    apply Forall_cons in Hne as [Hd Hne].
    set (v1 := message_append r (separator (_message r) +:+ f)).
    assert (Hrun : operator_shl res (Nested d) h = Some (v1, <[res := v1]> h)).
    { apply operator_shl_exec; [exact Hr|].
      unfold appended. rewrite Hr. simpl.
      rewrite (format_in_after_separator h res d Hd), Hf. reflexivity. }
    unfold shl_each; fold shl_each.
    rewrite (bind_run _ _ _ _ _ Hrun).
    rewrite (IH fs' (<[res := v1]> h) v1).
    + rewrite store_store. f_equal. f_equal. f_equal.
      assert (Hf1 : Str.empty f = false) by now apply format_in_not_empty in Hf.
      subst v1. simpl. unfold separator.
      rewrite !StrFacts.empty_app, Hf1, !andb_false_r.
      destruct (Str.empty (_message r)) eqn:Hm.
      * apply StrFacts.empty_true in Hm. rewrite Hm. reflexivity.
      * f_equal. apply StrMore.concat_absorb.
    + now apply lookup_store with r.
    + exact Hne.
    + now apply formats_store_other.
Qed.

(** X11. Appending the Results [d1], ..., [dn], none of them the receiver,
    one after the other to a Result with an empty message leaves their
    [format]s joined by [: ]; when the message was not empty it comes
    first, joined to them in the same way.  The code is unchanged. *)
Theorem cause_trail h res r (ds : list ResultRef) (fs : list string) :
  h !! res = Some r →
  Forall (λ d, d ≠ Here res) ds →
  Forall2 (λ d f, format_in h d = Some f) ds fs →
  shl_each res ds h
  = Some (tt,
          <[res := mkResult (_errorCode r)
                     (String.concat ": "
                        (if decide (_message r = "") then fs
                         else _message r :: fs))]> h).
Proof.
  intros Hr Hne Hfs.
  rewrite (shl_each_trail res ds fs h r Hr Hne Hfs).
  rewrite StrFacts.empty_decide. unfold bool_decide.
  now destruct (decide_rel eq (_message r) "").
Qed.

End SequenceMore.

(** ** The further properties at concrete inputs *)

Module MoreRuns.
Import Samples.

Example three_causes :
  shl_each 0 [Elsewhere cause_x; Elsewhere cause_y; Here 1]
    [@Result_default FileError; not_found]
  = Some (tt, [mkResult IO_ERROR "Code 1: X: Code 2: Y: Code 1: not found";
               not_found]).
Proof. reflexivity. Qed.

Example long_chain :
  shl_chain_all 0 (Streamed "a") [Streamed "b"; Streamed 7%Z; Streamed "c"]
    [not_found]
  = Some (mkResult NOT_FOUND "ab7c",
          [mkResult NOT_FOUND "a"; mkResult NOT_FOUND "ab";
           mkResult NOT_FOUND "ab7"; mkResult NOT_FOUND "ab7c"]).
Proof. reflexivity. Qed.

Example failure_as_success :
  Result_translate (Elsewhere cause_x) OK OK ([] : heap FileError)
  = Some (0, [mkResult OK "Code 1: X"])
  ∧ format (mkResult (T:=FileError) OK "Code 1: X") = "Success".
Proof. split; reflexivity. Qed.

End MoreRuns.

Module MoreWitnesses.
Import Samples.

Lemma format_keeps_message_witness :
  not_found_m = mkResult NOT_FOUND "m".
Proof.
  exact (format_keeps_message (T:=FileError) not_found_m
           (mkResult NOT_FOUND "m") eq_refl eq_refl eq_refl).
Defined.

Lemma format_after_append_witness :
  ∃ v : Result FileError,
    operator_shl 0 (Streamed "file.txt") [not_found]
    = Some (v, <[0 := v]> [not_found])
    ∧ format v =
        "Code " +:+ pretty 1%Z +:+ ": " +:+ "not found" +:+
        " (" +:+ "" +:+ "file.txt" +:+ ")".
Proof.
  assert (Hx : stream_out "file.txt" ≠ "") by discriminate.
  exact (format_after_append (T:=FileError) [not_found] 0 not_found "file.txt"
           eq_refl eq_refl Hx).
Defined.

Lemma nested_append_grows_witness :
  ∃ v : Result FileError,
    operator_shl 0 (Nested (Here 0)) [not_found_m]
    = Some (v, <[0 := v]> [not_found_m])
    ∧ 1 < String.length (_message v)
    ∧ Str.empty (_message v) = false.
Proof.
  apply (nested_append_grows (T:=FileError) [not_found_m] 0 (Here 0)
           not_found_m eq_refl).
  simpl. eauto.
Defined.

Lemma append_to_self_witness :
  ∃ v : Result FileError,
    operator_shl 0 (Nested (Here 0)) [not_found_m]
    = Some (v, <[0 := v]> [not_found_m])
    ∧ _message v = "m: Code 1: not found (m: )".
Proof.
  destruct (append_to_self (T:=FileError) [not_found_m] 0 not_found_m eq_refl)
    as (v & Hrun & _ & Hfail).
  exists v. split; [exact Hrun|].
  destruct Hfail as [Hmsg _]; [reflexivity | discriminate |].
  exact Hmsg.
Defined.

Lemma translate_keeps_classification_witness :
  ∃ (new : Result FileError) f,
    Result_translate_default (Elsewhere cause_x) IO_ERROR []
    = Some (0, [] ++ [new])
    ∧ format_in ([] : heap FileError) (Elsewhere cause_x) = Some f
    ∧ isFailure_in ([] : heap FileError) (Elsewhere cause_x)
      = Some (isFailure new)
    ∧ (isSuccess new = true → new = Result_ctor success)
    ∧ (isFailure new = true →
       format new =
         "Code " +:+ pretty 2%Z +:+ ": " +:+ "input/output error" +:+
         " (" +:+ f +:+ ")").
Proof.
  apply (translate_keeps_classification (T:=FileError) []
           (Elsewhere cause_x) IO_ERROR); [exact I | discriminate].
Defined.

Lemma translate_failure_as_success_witness :
  ∃ new : Result FileError,
    Result_translate (Elsewhere cause_x) OK IO_ERROR []
    = Some (0, [] ++ [new])
    ∧ isSuccess new = true
    ∧ format_in ([] : heap FileError) (Elsewhere cause_x)
      = Some (getMessage new)
    ∧ getMessage new ≠ ""
    ∧ format new = "Success".
Proof.
  apply (translate_failure_as_success (T:=FileError) []
           (Elsewhere cause_x) IO_ERROR); [exact I | reflexivity].
Defined.

Lemma chain_all_streamed_witness :
  ∃ h' : heap FileError,
    shl_chain_all 0 (Streamed "a") ((λ b, Streamed b) <$> ["b"; "c"])
      [not_found]
    = Some (mkResult NOT_FOUND
              ("" +:+ "a" +:+ String.concat "" (stream_out <$> ["b"; "c"])),
            h')
    ∧ h' !! 0 = Some (mkResult NOT_FOUND ("" +:+ "a"))
    ∧ length h' = 1 + 2
    ∧ (∀ l x, l ≠ 0 → [not_found] !! l = Some x → h' !! l = Some x).
Proof.
  exact (chain_all_streamed (T:=FileError) [not_found] 0 not_found
           "a" ["b"; "c"] eq_refl).
Defined.

Lemma cause_trail_witness :
  shl_each 0 [Elsewhere cause_x; Elsewhere cause_y] [not_found_m]
  = Some (tt, [mkResult NOT_FOUND "m: Code 1: X: Code 2: Y"]).
Proof.
  assert (Hne : Forall (λ d, d ≠ Here 0) [Elsewhere cause_x; Elsewhere cause_y])
    by (repeat constructor; discriminate).
  assert (Hfs : Forall2 (λ d f, format_in [not_found_m] d = Some f)
                  [Elsewhere cause_x; Elsewhere cause_y]
                  ["Code 1: X"; "Code 2: Y"])
    by (repeat constructor).
  exact (cause_trail (T:=FileError) [not_found_m] 0 not_found_m
           [Elsewhere cause_x; Elsewhere cause_y]
           ["Code 1: X"; "Code 2: Y"] eq_refl Hne Hfs).
Defined.

End MoreWitnesses.
